(** * apply_tour_patch.py: an exact-match, first-occurrence text patch

    The script reads one file as text, checks that a literal block [old]
    occurs in it, replaces the first occurrence by [new] and writes the text
    back:

<<
    path = Path("src/components/tournaments/tournament-playoffs.tsx")
    data = path.read_text()
    old = <a literal block of the file>
    new = <the block that takes its place>
    if old not in data:
        raise SystemExit("block not found")
    path.write_text(data.replace(old, new, 1))
>>

    The two literals are payload; every statement below is for arbitrary
    [old] and [new]. *)

From Stdlib Require Import Ascii String List Arith Bool Lia.
Import ListNotations.

(** ** Text

    A Python [str] is modelled as the list of its characters.  The locale
    codec is taken to be a single-byte one, so a character is an [ascii]
    and the bytes of a file are a list of the same type; which byte
    sequences the codec decodes is left to the environment ([Env] below). *)

Definition str := list ascii.

Definition lit (s : string) : str := list_ascii_of_string s.

Definition LF : ascii := ascii_of_nat 10.
Definition CR : ascii := ascii_of_nat 13.

Module Str.

(** [s.startswith(p)] *)
Fixpoint startswith (p s : str) : bool :=
  match p, s with
  | [], _ => true
  | _ :: _, [] => false
  | a :: p', b :: s' => Ascii.eqb a b && startswith p' s'
  end.

(** [s.find(old)]: the lowest index at which [old] occurs in [s];
    [None] stands for Python's [-1]. *)
Fixpoint find (old s : str) : option nat :=
  if startswith old s then Some 0
  else match s with
       | [] => None
       | _ :: s' => option_map S (find old s')
       end.

(** [old in s] *)
Definition contains (old s : str) : bool :=
  match find old s with Some _ => true | None => false end.

(** [s.replace(old, new, 1)]: the first occurrence is cut out and [new]
    is spliced in; without an occurrence [s] is returned as it is. *)
Definition replace1 (old new s : str) : str :=
  match find old s with
  | Some i => firstn i s ++ new ++ skipn (i + length old) s
  | None => s
  end.

(** All indices [i], in increasing order and shifted by [base], at which
    [old] matches in [s] (matches may overlap; the empty block matches at
    every index from [0] to [len(s)]). *)
Fixpoint occurrences_from (base : nat) (old s : str) : list nat :=
  (if startswith old s then [base] else []) ++
  match s with
  | [] => []
  | _ :: s' => occurrences_from (S base) old s'
  end.

Definition occurrences (old s : str) : list nat := occurrences_from 0 old s.

Definition count_occurrences (old s : str) : nat := length (occurrences old s).

(** [old] matches in [s] at index [i]. *)
Definition occurs_at (old s : str) (i : nat) : Prop :=
  exists pre post, s = pre ++ old ++ post /\ length pre = i.

End Str.

(** ** Text-mode file I/O

    [Path.read_text()] and [Path.write_text()] open the file in text mode
    with [newline=None]: on input CR LF and a lone CR are both delivered as
    LF, on output every LF is written as [os.linesep]. *)

Fixpoint universal_newlines (bytes : str) : str :=
  match bytes with
  | [] => []
  | c :: rest =>
      if Ascii.eqb c CR then
        match rest with
        | d :: rest' =>
            if Ascii.eqb d LF then LF :: universal_newlines rest'
            else LF :: universal_newlines rest
        | [] => [LF]
        end
      else c :: universal_newlines rest
  end.

Fixpoint translate_out (linesep text : str) : str :=
  match text with
  | [] => []
  | c :: rest =>
      if Ascii.eqb c LF then linesep ++ translate_out linesep rest
      else c :: translate_out linesep rest
  end.

(** ** The file system as the script sees it

    Only the target path matters.  [target = None]: nothing exists at the
    path.  The trace records every I/O operation the script attempts, oldest
    first. *)

Record file := mkfile {
  f_bytes : str;
  f_readable : bool;
  f_writable : bool
}.

Inductive event :=
| EvOpenRead                 (* open(path, "r") and read to the end *)
| EvOpenWrite                (* open(path, "w"): creates or truncates *)
| EvWriteData (text : str).  (* f.write(text) and close *)

Record World := mkWorld {
  linesep : str;             (* os.linesep *)
  target : option file;
  trace : list event
}.

Definition log (e : event) (w : World) : World :=
  mkWorld (linesep w) (target w) (trace w ++ [e]).

Definition set_bytes (bytes : str) (w : World) : World :=
  mkWorld (linesep w)
          (match target w with
           | Some f => Some (mkfile bytes (f_readable f) (f_writable f))
           | None => Some (mkfile bytes true true)
           end)
          (trace w).

Inductive oserror := FileNotFoundError | PermissionError.

(** [path.read_text()] *)
Definition read_text (w : World) : (oserror + str) * World :=
  let w' := log EvOpenRead w in
  match target w with
  | None => (inl FileNotFoundError, w')
  | Some f =>
      if f_readable f then (inr (universal_newlines (f_bytes f)), w')
      else (inl PermissionError, w')
  end.

(** The first half of [path.write_text(text)]: [open(path, "w")].  An
    existing file is truncated at once, a missing one is created empty. *)
Definition open_w (w : World) : option oserror * World :=
  let w' := log EvOpenWrite w in
  match target w with
  | Some f =>
      if f_writable f then (None, set_bytes [] w')
      else (Some PermissionError, w')
  | None => (None, set_bytes [] w')
  end.

(** The second half: [f.write(text)] and the close that flushes it. *)
Definition write_data (text : str) (w : World) : World :=
  set_bytes (translate_out (linesep w) text) (log (EvWriteData text) w).

(** [path.write_text(text)] *)
Definition write_text (text : str) (w : World) : option oserror * World :=
  match open_w w with
  | (Some e, w') => (Some e, w')
  | (None, w') => (None, write_data text w')
  end.

(** ** The script *)

Inductive outcome :=
| Completed
| ReadRaised (e : oserror)    (* uncaught OSError out of line 4 *)
| SystemExit (msg : str)      (* line 185 *)
| WriteRaised (e : oserror)   (* uncaught OSError out of line 186, at the open *)
| DecodeRaised                (* uncaught UnicodeDecodeError out of line 4 *)
| WriteDataRaised.            (* uncaught exception out of line 186, after the
                                 open: f.write or the close failed *)

(** The specification's names for the failures. *)
Definition BlockNotFound : outcome := SystemExit (lit "block not found").

Definition TargetNotFound (o : outcome) : Prop := exists e, o = ReadRaised e.

Definition apply (old new : str) (w : World) : outcome * World :=
  match read_text w with
  | (inl e, w1) => (ReadRaised e, w1)
  | (inr data, w1) =>
      if negb (Str.contains old data) then (BlockNotFound, w1)
      else
        match write_text (Str.replace1 old new data) w1 with
        | (Some e, w2) => (WriteRaised e, w2)
        | (None, w2) => (Completed, w2)
        end
  end.

(** The same script one operation at a time, for runs that are cut short. *)

Inductive pc :=
| Line4                        (* data = path.read_text() *)
| Line184 (data : str)         (* if old not in data: raise SystemExit(...) *)
| Line186_open (text : str)    (* path.write_text(text): open(path, "w") *)
| Line186_write (text : str)   (* ... f.write(text), close *)
| Halt (o : outcome).

Definition step (old new : str) (c : pc * World) : pc * World :=
  let (p, w) := c in
  match p with
  | Line4 =>
      match read_text w with
      | (inl e, w') => (Halt (ReadRaised e), w')
      | (inr data, w') => (Line184 data, w')
      end
  | Line184 data =>
      if negb (Str.contains old data) then (Halt BlockNotFound, w)
      else (Line186_open (Str.replace1 old new data), w)
  | Line186_open text =>
      match open_w w with
      | (Some e, w') => (Halt (WriteRaised e), w')
      | (None, w') => (Line186_write text, w')
      end
  | Line186_write text => (Halt Completed, write_data text w)
  | Halt o => (Halt o, w)
  end.

Fixpoint run (old new : str) (k : nat) (c : pc * World) : pc * World :=
  match k with
  | 0 => c
  | S k' => run old new k' (step old new c)
  end.

(** The world a run leaves behind when the process is stopped after [k]
    operations. *)
Definition interrupted (old new : str) (k : nat) (w : World) : World :=
  snd (run old new k (Line4, w)).

(** The world after a run in which the read, the open and the write have
    all been done. *)
Definition patched (text : str) (w : World) : World :=
  write_data text (set_bytes [] (log EvOpenWrite (log EvOpenRead w))).

(** ** Runs in which the environment fails

    [read_text], [write_data] and [apply] above are the operations on a
    file that the locale codec decodes and on a device that stores what it
    is given.  In general [path.read_text()] raises [UnicodeDecodeError] on
    bytes the codec does not decode, and after the open has truncated the
    file, [f.write] or the flush at the close can raise (an [OSError] for a
    full disk or a file size limit, [UnicodeEncodeError] for a character
    the codec does not encode, which is the case of no byte stored) or the
    process can be stopped, with only the first bytes of the content in the
    file.  An [Env] fixes what the environment does to one run. *)

Record Env := mkEnv {
  decodable : str -> bool;     (* the byte sequences the locale codec decodes *)
  write_fault : option nat     (* [Some n]: the write stops after [n] bytes *)
}.

Definition no_faults : Env := mkEnv (fun _ => true) None.

Inductive read_exn :=
| ReadOSError (e : oserror)
| UnicodeDecodeError.

Inductive write_exn :=
| OpenOSError (e : oserror)
| WriteError.

Definition read_text_in (env : Env) (w : World) : (read_exn + str) * World :=
  let w' := log EvOpenRead w in
  match target w with
  | None => (inl (ReadOSError FileNotFoundError), w')
  | Some f =>
      if f_readable f then
        if decodable env (f_bytes f)
        then (inr (universal_newlines (f_bytes f)), w')
        else (inl UnicodeDecodeError, w')
      else (inl (ReadOSError PermissionError), w')
  end.

(** [f.write(text)] and the close; [false] when it raised. *)
Definition write_data_in (env : Env) (text : str) (w : World) : bool * World :=
  match write_fault env with
  | None => (true, write_data text w)
  | Some n =>
      (false,
       set_bytes (firstn n (translate_out (linesep w) text))
                 (log (EvWriteData text) w))
  end.

Definition write_text_in (env : Env) (text : str) (w : World)
  : option write_exn * World :=
  match open_w w with
  | (Some e, w') => (Some (OpenOSError e), w')
  | (None, w') =>
      match write_data_in env text w' with
      | (true, w'') => (None, w'')
      | (false, w'') => (Some WriteError, w'')
      end
  end.

Definition apply_in (env : Env) (old new : str) (w : World) : outcome * World :=
  match read_text_in env w with
  | (inl (ReadOSError e), w1) => (ReadRaised e, w1)
  | (inl UnicodeDecodeError, w1) => (DecodeRaised, w1)
  | (inr data, w1) =>
      if negb (Str.contains old data) then (BlockNotFound, w1)
      else
        match write_text_in env (Str.replace1 old new data) w1 with
        | (Some (OpenOSError e), w2) => (WriteRaised e, w2)
        | (Some WriteError, w2) => (WriteDataRaised, w2)
        | (None, w2) => (Completed, w2)
        end
  end.

(** The world after a run whose write stopped after [n] bytes. *)
Definition partly_patched (n : nat) (text : str) (w : World) : World :=
  set_bytes (firstn n (translate_out (linesep w) text))
            (log (EvWriteData text)
                 (set_bytes [] (log EvOpenWrite (log EvOpenRead w)))).

(** ** Observations *)

Definition is_write (e : event) : bool :=
  match e with
  | EvOpenRead => false
  | EvOpenWrite | EvWriteData _ => true
  end.

(** The operations on the target that could change it. *)
Definition write_ops (t : list event) : list event := filter is_write t.

(** The texts handed to [f.write], oldest first. *)
Fixpoint written (t : list event) : list str :=
  match t with
  | [] => []
  | EvWriteData text :: t' => text :: written t'
  | _ :: t' => written t'
  end.

Definition bytes_of (w : World) : option str := option_map f_bytes (target w).

(** What [path.read_text()] would return, when it returns. *)
Definition text_of (w : World) : option str :=
  match target w with
  | Some f => if f_readable f then Some (universal_newlines (f_bytes f)) else None
  | None => None
  end.

Definition writable (w : World) : bool :=
  match target w with
  | Some f => f_writable f
  | None => true
  end.

Definition has_CR (s : str) : bool := existsb (Ascii.eqb CR) s.

(** A readable and writable file holding [bytes], on a POSIX system, with
    no I/O done so far. *)
Definition posix_file (bytes : str) : World :=
  mkWorld [LF] (Some (mkfile bytes true true)) [].

(** * Properties *)

Example find_greet :
  Str.find (lit "'hi'") (lit "function greet() { return 'hi'; }") = Some 26.
Proof. reflexivity. Qed.

Example replace1_greet :
  Str.replace1 (lit "'hi'") (lit "'hello'") (lit "function greet() { return 'hi'; }")
  = lit "function greet() { return 'hello'; }".
Proof. reflexivity. Qed.

Example universal_newlines_crlf :
  universal_newlines (lit "a" ++ [CR; LF] ++ lit "b" ++ [CR] ++ lit "c")
  = lit "a" ++ [LF] ++ lit "b" ++ [LF] ++ lit "c".
Proof. reflexivity. Qed.

(** ** Substring search *)

Module StrFacts.
Import Str.

Lemma startswith_app (p post : str) : startswith p (p ++ post) = true.
Proof.
  induction p as [|a p IH]; simpl; [reflexivity|].
  now rewrite Ascii.eqb_refl, IH.
Qed.

Lemma startswith_inv (p s : str) :
  startswith p s = true -> exists post, s = p ++ post.
Proof.
  revert s; induction p as [|a p IH]; intros s H.
  - now exists s.
  - destruct s as [|b s]; simpl in H; [discriminate|].
    apply andb_true_iff in H as [Hab Hps].
    apply Ascii.eqb_eq in Hab; subst b.
    destruct (IH _ Hps) as [post ->].
    now exists post.
Qed.

Lemma startswith_iff (p s : str) :
  startswith p s = true <-> exists post, s = p ++ post.
Proof.
  split; [apply startswith_inv|].
  intros [post ->]; apply startswith_app.
Qed.

Lemma startswith_nil (s : str) : startswith [] s = true.
Proof. now destruct s. Qed.

(** An occurrence at index [i] is a match of the suffix that starts there. *)
Lemma occurs_at_iff (old s : str) (i : nat) :
  occurs_at old s i <-> i <= length s /\ startswith old (skipn i s) = true.
Proof.
  split.
  - intros (pre & post & -> & <-).
    rewrite length_app. split; [lia|].
    rewrite skipn_app, Nat.sub_diag, skipn_all. simpl.
    apply startswith_app.
  - intros [Hi H]. apply startswith_inv in H as [post Hpost].
    exists (firstn i s), post. split.
    + now rewrite <- Hpost, firstn_skipn.
    + apply firstn_length_le, Hi.
Qed.

Lemma occurs_at_0 (old s : str) :
  occurs_at old s 0 <-> startswith old s = true.
Proof.
  rewrite occurs_at_iff. simpl. intuition lia.
Qed.

Lemma occurs_at_S (old : str) (c : ascii) (s : str) (i : nat) :
  occurs_at old (c :: s) (S i) <-> occurs_at old s i.
Proof.
  rewrite !occurs_at_iff. simpl. intuition lia.
Qed.

(** [find] returns an occurrence, and the lowest one. *)
Lemma find_Some (old s : str) (i : nat) :
  find old s = Some i ->
  occurs_at old s i /\ forall j, occurs_at old s j -> i <= j.
Proof.
  revert i; induction s as [|c s IH]; intros i; simpl.
  - destruct (startswith old []) eqn:E; [|discriminate].
    intros [= <-]. split; [now apply occurs_at_0 | intros; lia].
  - destruct (startswith old (c :: s)) eqn:E.
    + intros [= <-]. split; [now apply occurs_at_0 | intros; lia].
    + destruct (find old s) as [k|] eqn:F; [|discriminate].
      intros [= <-]. destruct (IH k eq_refl) as [Hk Hmin]. split.
      * now apply occurs_at_S.
      * intros [|j] Hj.
        -- apply occurs_at_0 in Hj. congruence.
        -- apply occurs_at_S in Hj. apply Hmin in Hj. lia.
Qed.

Lemma find_None (old s : str) (i : nat) :
  find old s = None -> ~ occurs_at old s i.
Proof.
  revert i; induction s as [|c s IH]; intros i; simpl.
  - destruct (startswith old []) eqn:E; [discriminate|].
    intros _ H. apply occurs_at_iff in H as [Hi H]. simpl in Hi.
    assert (i = 0) by lia. subst i. simpl in H. congruence.
  - destruct (startswith old (c :: s)) eqn:E; [discriminate|].
    destruct (find old s) as [k|] eqn:F; [discriminate|].
    intros _. destruct i as [|i]; intros H.
    + apply occurs_at_0 in H. congruence.
    + apply occurs_at_S in H. now apply (IH i).
Qed.

(** [old in s] holds exactly when [s] splits around a copy of [old]. *)
Lemma contains_iff (old s : str) :
  contains old s = true <-> exists pre post, s = pre ++ old ++ post.
Proof.
  unfold contains. destruct (find old s) as [i|] eqn:F; split.
  - intros _. apply find_Some in F as [(pre & post & H & _) _]. eauto.
  - reflexivity.
  - discriminate.
  - intros (pre & post & H). exfalso.
    apply (find_None old s (length pre) F). now exists pre, post.
Qed.

Lemma contains_false_iff (old s : str) :
  contains old s = false <-> forall pre post, s <> pre ++ old ++ post.
Proof.
  split.
  - intros H pre post E.
    assert (contains old s = true) by (apply contains_iff; eauto). congruence.
  - intros H. destruct (contains old s) eqn:E; [|reflexivity].
    apply contains_iff in E as (pre & post & E). now apply H in E.
Qed.

(** The split of [s] at an occurrence is determined by its index. *)
Lemma split_at (old s pre post : str) :
  s = pre ++ old ++ post ->
  pre = firstn (length pre) s /\ post = skipn (length pre + length old) s.
Proof.
  intros ->. split.
  - now rewrite firstn_app, Nat.sub_diag, firstn_all, app_nil_r.
  - rewrite app_assoc, skipn_app, length_app, Nat.sub_diag, skipn_all2; simpl.
    + reflexivity.
    + rewrite length_app; lia.
Qed.

(** [replace1] on the split at the first occurrence. *)
Lemma replace1_first (old new pre post : str) :
  (forall j, occurs_at old (pre ++ old ++ post) j -> length pre <= j) ->
  replace1 old new (pre ++ old ++ post) = pre ++ new ++ post.
Proof.
  intros Hmin. unfold replace1.
  destruct (find old (pre ++ old ++ post)) as [i|] eqn:F.
  - apply find_Some in F as [Hi Hle].
    assert (i = length pre) as ->.
    { apply Nat.le_antisymm; [apply Hle; now exists pre, post | now apply Hmin]. }
    destruct (split_at old _ pre post eq_refl) as [<- <-]. reflexivity.
  - exfalso. apply (find_None _ _ (length pre) F). now exists pre, post.
Qed.

Lemma replace1_found (old new s : str) (i : nat) :
  find old s = Some i ->
  exists pre post,
    s = pre ++ old ++ post /\ length pre = i /\
    replace1 old new s = pre ++ new ++ post.
Proof.
  intros F. unfold replace1. rewrite F.
  apply find_Some in F as [(pre & post & E & L) _].
  exists pre, post. repeat split; trivial.
  destruct (split_at old s pre post E) as [Hpre Hpost].
  rewrite L in Hpre, Hpost. now rewrite <- Hpre, <- Hpost.
Qed.

Lemma replace1_absent (old new s : str) :
  contains old s = false -> replace1 old new s = s.
Proof.
  unfold contains, replace1. now destruct (find old s).
Qed.

Lemma replace1_length (old new s : str) :
  contains old s = true ->
  length (replace1 old new s) = length s - length old + length new.
Proof.
  unfold contains. destruct (find old s) as [i|] eqn:F; [intros _|discriminate].
  destruct (replace1_found old new s i F) as (pre & post & -> & _ & ->).
  rewrite !length_app. lia.
Qed.

(** The empty block. *)
Lemma find_nil (s : str) : find [] s = Some 0.
Proof. destruct s; reflexivity. Qed.

Lemma contains_nil (s : str) : contains [] s = true.
Proof. unfold contains. now rewrite find_nil. Qed.

Lemma replace1_nil (new s : str) : replace1 [] new s = new ++ s.
Proof. unfold replace1. now rewrite find_nil. Qed.

End StrFacts.

(** ** Counting occurrences *)

Module OccFacts.
Import Str StrFacts.

Lemma In_occurrences_from (old s : str) (base i : nat) :
  In i (occurrences_from base old s) <->
  exists j, i = base + j /\ occurs_at old s j.
Proof.
  revert base i; induction s as [|c s IH]; intros base i; simpl.
  - rewrite app_nil_r. destruct (startswith old []) eqn:E; simpl; split.
    + intros [<-|[]]. exists 0. split; [lia | now apply occurs_at_0].
    + intros (j & -> & H). left.
      apply occurs_at_iff in H as [Hj _]. simpl in Hj. lia.
    + intros [].
    + intros (j & -> & H). apply occurs_at_iff in H as [Hj H]. simpl in Hj.
      assert (j = 0) by lia. subst j. simpl in H. congruence.
  - rewrite in_app_iff, IH. split.
    + intros [H|(j & -> & H)].
      * destruct (startswith old (c :: s)) eqn:E; [|destruct H].
        destruct H as [<-|[]]. exists 0. split; [lia | now apply occurs_at_0].
      * exists (S j). split; [lia | now apply occurs_at_S].
    + intros ([|j] & -> & H).
      * left. apply occurs_at_0 in H. rewrite H. left. lia.
      * right. exists j. split; [lia | now apply occurs_at_S in H].
Qed.

Lemma In_occurrences (old s : str) (i : nat) :
  In i (occurrences old s) <-> occurs_at old s i.
Proof.
  unfold occurrences. rewrite In_occurrences_from. split.
  - now intros (j & -> & H).
  - intros H. now exists i.
Qed.

(** The list of occurrences starts with the index [find] returns. *)
Lemma occurrences_from_find (old s : str) (base : nat) :
  match find old s with
  | Some i => exists rest, occurrences_from base old s = (base + i) :: rest
  | None => occurrences_from base old s = []
  end.
Proof.
  revert base; induction s as [|c s IH]; intros base; simpl.
  - destruct (startswith old []); simpl; [|reflexivity].
    exists []. f_equal. lia.
  - destruct (startswith old (c :: s)); simpl.
    + eexists. f_equal. lia.
    + specialize (IH (S base)). destruct (find old s) as [i|]; simpl.
      * destruct IH as [rest ->]. exists rest. f_equal. lia.
      * exact IH.
Qed.


(** With a single occurrence every split around [old] is the same one. *)
Lemma count_one_unique (old s : str) :
  count_occurrences old s = 1 ->
  exists i, find old s = Some i /\ forall j, occurs_at old s j -> j = i.
Proof.
  unfold count_occurrences, occurrences. intros Hc.
  pose proof (occurrences_from_find old s 0) as H.
  destruct (find old s) as [i|] eqn:F.
  - destruct H as [rest Hocc]. exists i. split; [reflexivity|].
    intros j Hj. apply In_occurrences in Hj. unfold occurrences in Hj.
    rewrite Hocc in Hc, Hj. destruct rest; [|discriminate].
    destruct Hj as [<-|[]]. lia.
  - rewrite H in Hc. discriminate.
Qed.

Lemma unique_split (old s pre post pre' post' : str) :
  s = pre ++ old ++ post -> s = pre' ++ old ++ post' ->
  length pre' = length pre -> pre' = pre /\ post' = post.
Proof.
  intros E E' L.
  destruct (split_at old s pre post E) as [Hpre Hpost].
  destruct (split_at old s pre' post' E') as [Hpre' Hpost'].
  rewrite L in Hpre', Hpost'. split; congruence.
Qed.

End OccFacts.

(** ** Newline translation *)

Module NewlineFacts.

Lemma CR_neq_LF : Ascii.eqb CR LF = false.
Proof. reflexivity. Qed.

Lemma has_CR_cons (c : ascii) (s : str) :
  has_CR (c :: s) = false -> Ascii.eqb c CR = false /\ has_CR s = false.
Proof.
  unfold has_CR. simpl. rewrite Ascii.eqb_sym.
  intros H. now apply orb_false_iff in H.
Qed.

Lemma has_CR_app (s t : str) :
  has_CR (s ++ t) = has_CR s || has_CR t.
Proof. apply existsb_app. Qed.

Lemma has_CR_LF (s : str) : has_CR (LF :: s) = has_CR s.
Proof. reflexivity. Qed.

(** Text without CR is read as it is stored. *)
Lemma universal_newlines_id (bytes : str) :
  has_CR bytes = false -> universal_newlines bytes = bytes.
Proof.
  induction bytes as [|c rest IH]; [reflexivity|].
  intros H. apply has_CR_cons in H as [Hc Hrest].
  simpl. rewrite Hc. f_equal. now apply IH.
Qed.

(** With [os.linesep = "\n"] text is stored as it is written. *)
Lemma translate_out_LF (text : str) : translate_out [LF] text = text.
Proof.
  induction text as [|c rest IH]; [reflexivity|].
  simpl. rewrite IH. destruct (Ascii.eqb c LF) eqn:E; [|reflexivity].
  apply Ascii.eqb_eq in E. now subst c.
Qed.

(** [read_text] never returns a CR. *)
Lemma universal_newlines_no_CR (bytes : str) :
  has_CR (universal_newlines bytes) = false.
Proof.
  assert (forall n bytes, length bytes <= n ->
            has_CR (universal_newlines bytes) = false) as H.
  { intros n. induction n as [|n IH]; intros [|c rest] L; simpl in *;
      try reflexivity; try lia.
    destruct (Ascii.eqb c CR) eqn:Ec.
    - destruct rest as [|d rest']; [reflexivity|].
      simpl in L.
      destruct (Ascii.eqb d LF); rewrite has_CR_LF; apply IH; simpl; lia.
    - change (has_CR (c :: universal_newlines rest))
        with (Ascii.eqb CR c || has_CR (universal_newlines rest)).
      rewrite Ascii.eqb_sym, Ec. apply IH. lia. }
  intros. now apply (H (length bytes)).
Qed.

(** Text without CR survives a write followed by a read, on both POSIX
    ([os.linesep = "\n"]) and Windows ([os.linesep = "\r\n"]). *)
Lemma read_back_id (ls text : str) :
  ls = [LF] \/ ls = [CR; LF] ->
  has_CR text = false ->
  universal_newlines (translate_out ls text) = text.
Proof.
  intros Hls. induction text as [|c rest IH]; [reflexivity|].
  intros H. apply has_CR_cons in H as [Hc Hrest]. specialize (IH Hrest).
  simpl. destruct (Ascii.eqb c LF) eqn:E.
  - apply Ascii.eqb_eq in E. subst c.
    destruct Hls as [-> | ->]; simpl; now rewrite IH.
  - simpl. now rewrite Hc, IH.
Qed.

End NewlineFacts.

(** ** One run of the script *)

Module RunFacts.

Lemma text_of_Some (w : World) (C : str) :
  text_of w = Some C ->
  exists f, target w = Some f /\ f_readable f = true /\
            C = universal_newlines (f_bytes f).
Proof.
  unfold text_of. destruct (target w) as [f|]; [|discriminate].
  destruct (f_readable f) eqn:R; [|discriminate].
  intros [= <-]. now exists f.
Qed.

Lemma text_of_None (w : World) :
  text_of w = None <->
  target w = None \/ exists f, target w = Some f /\ f_readable f = false.
Proof.
  unfold text_of. destruct (target w) as [f|].
  - destruct (f_readable f) eqn:R; split; try discriminate.
    + intros [H|(g & [= <-] & H)]; congruence.
    + intros _. right. now exists f.
    + reflexivity.
  - split; [now left | reflexivity].
Qed.

Lemma read_text_ok (w : World) (C : str) :
  text_of w = Some C -> read_text w = (inr C, log EvOpenRead w).
Proof.
  intros H. apply text_of_Some in H as (f & T & R & ->).
  unfold read_text. now rewrite T, R.
Qed.

Lemma read_text_fails (w : World) :
  text_of w = None -> exists e, read_text w = (inl e, log EvOpenRead w).
Proof.
  unfold text_of, read_text. destruct (target w) as [f|].
  - destruct (f_readable f); [discriminate|]. now exists PermissionError.
  - now exists FileNotFoundError.
Qed.

Lemma open_w_ok (w : World) :
  writable w = true -> open_w w = (None, set_bytes [] (log EvOpenWrite w)).
Proof.
  unfold writable, open_w. destruct (target w) as [f|]; [|reflexivity].
  now intros ->.
Qed.

Lemma open_w_fails (w : World) :
  writable w = false -> open_w w = (Some PermissionError, log EvOpenWrite w).
Proof.
  unfold writable, open_w. destruct (target w) as [f|]; [|discriminate].
  now intros ->.
Qed.

Lemma apply_unreadable (old new : str) (w : World) :
  text_of w = None ->
  exists e, apply old new w = (ReadRaised e, log EvOpenRead w).
Proof.
  intros H. destruct (read_text_fails w H) as [e E].
  exists e. unfold apply. now rewrite E.
Qed.

Lemma apply_absent (old new : str) (w : World) (C : str) :
  text_of w = Some C -> Str.contains old C = false ->
  apply old new w = (BlockNotFound, log EvOpenRead w).
Proof.
  intros H A. unfold apply. now rewrite (read_text_ok w C H), A.
Qed.

Lemma apply_unwritable (old new : str) (w : World) (C : str) :
  text_of w = Some C -> Str.contains old C = true -> writable w = false ->
  apply old new w =
  (WriteRaised PermissionError, log EvOpenWrite (log EvOpenRead w)).
Proof.
  intros H A W. unfold apply, write_text.
  rewrite (read_text_ok w C H), A. simpl.
  now rewrite (open_w_fails (log EvOpenRead w) W).
Qed.

Lemma apply_present (old new : str) (w : World) (C : str) :
  text_of w = Some C -> Str.contains old C = true -> writable w = true ->
  apply old new w = (Completed, patched (Str.replace1 old new C) w).
Proof.
  intros H A W. unfold apply, write_text, patched.
  rewrite (read_text_ok w C H), A. simpl.
  now rewrite (open_w_ok (log EvOpenRead w) W).
Qed.

Lemma patched_trace (text : str) (w : World) :
  trace (patched text w) =
  trace w ++ [EvOpenRead; EvOpenWrite; EvWriteData text].
Proof. simpl. now rewrite <- !app_assoc. Qed.

Lemma patched_bytes (text : str) (w : World) :
  bytes_of (patched text w) = Some (translate_out (linesep w) text).
Proof. unfold bytes_of. simpl. now destruct (target w). Qed.

Lemma patched_linesep (text : str) (w : World) :
  linesep (patched text w) = linesep w.
Proof. reflexivity. Qed.

Lemma patched_text_of (text : str) (w : World) (C : str) :
  text_of w = Some C ->
  text_of (patched text w) =
  Some (universal_newlines (translate_out (linesep w) text)).
Proof.
  intros H. apply text_of_Some in H as (f & T & R & _).
  unfold text_of. simpl. now rewrite T, R.
Qed.

Lemma patched_writable (text : str) (w : World) :
  writable w = true -> writable (patched text w) = true.
Proof. unfold writable. simpl. now destruct (target w). Qed.

Lemma written_app (t u : list event) :
  written (t ++ u) = written t ++ written u.
Proof.
  induction t as [|e t IH]; [reflexivity|].
  destruct e; simpl; now rewrite IH.
Qed.

Lemma write_ops_app (t u : list event) :
  write_ops (t ++ u) = write_ops t ++ write_ops u.
Proof. apply filter_app. Qed.

(** Four operations are a whole run. *)
Lemma run_apply (old new : str) (w : World) :
  run old new 4 (Line4, w) =
  (Halt (fst (apply old new w)), snd (apply old new w)).
Proof.
  unfold apply, write_text. cbn [run step].
  destruct (read_text w) as [[e|data] w1]; [reflexivity|].
  cbn [step]. destruct (negb (Str.contains old data)); [reflexivity|].
  cbn [step]. now destruct (open_w w1) as [[e|] w2].
Qed.

Lemma run_halted (old new : str) (k : nat) (o : outcome) (w : World) :
  run old new k (Halt o, w) = (Halt o, w).
Proof. induction k; simpl; auto. Qed.

Lemma run_add (old new : str) (j k : nat) (c : pc * World) :
  run old new (j + k) c = run old new k (run old new j c).
Proof. revert c; induction j; simpl; auto. Qed.

(** Longer runs change nothing more. *)
Lemma run_ge_4 (old new : str) (k : nat) (w : World) :
  4 <= k ->
  run old new k (Line4, w) =
  (Halt (fst (apply old new w)), snd (apply old new w)).
Proof.
  intros H. replace k with (4 + (k - 4)) by lia.
  now rewrite run_add, run_apply, run_halted.
Qed.

End RunFacts.

(** * The claims *)

Import Str StrFacts OccFacts NewlineFacts RunFacts.

(** C1, as stated, fails on the bytes of a file with CR LF line ends, on a
    POSIX system: the file holds "old\r\nrest", nine bytes in which "old"
    occurs exactly once, and [new = "new"].  The run completes and stores
    "new\nrest": the bytes after the occurrence are not the ones that were
    there, and the length is 8, not 9 - 3 + 3. *)
Lemma single_occurrence_counterexample :
  let bytes := lit "old" ++ [CR; LF] ++ lit "rest" in
  let r := apply (lit "old") (lit "new") (posix_file bytes) in
  count_occurrences (lit "old") bytes = 1 /\
  bytes = [] ++ lit "old" ++ ([CR; LF] ++ lit "rest") /\
  fst r = Completed /\
  bytes_of (snd r) = Some (lit "new" ++ [LF] ++ lit "rest") /\
  bytes_of (snd r) <> Some ([] ++ lit "new" ++ ([CR; LF] ++ lit "rest")) /\
  length (lit "new" ++ [LF] ++ lit "rest") = 8 /\
  length bytes - length (lit "old") + length (lit "new") = 9.
Proof. repeat split; discriminate. Qed.

(** C1, amended.  Let the file be readable and writable and let its text
    [C], as [read_text] returns it, contain [old] exactly once.  Then the
    run completes; [C] splits in one way only as [pre ++ old ++ post]; the
    one text handed to [write_text] is [pre ++ new ++ post], of length
    [len(C) - len(old) + len(new)].  When the file holds no CR and
    [os.linesep] is LF, [C] is the content of the file byte for byte and
    the content stored is [pre ++ new ++ post]: that of the file with the
    one occurrence replaced and every other byte unchanged. *)
Theorem apply_exact_single_occurrence
    (old new : str) (w : World) (C : str) :
  text_of w = Some C ->
  writable w = true ->
  count_occurrences old C = 1 ->
  exists pre post,
    C = pre ++ old ++ post /\
    (forall pre' post', C = pre' ++ old ++ post' -> pre' = pre /\ post' = post) /\
    fst (apply old new w) = Completed /\
    written (trace (snd (apply old new w))) =
      written (trace w) ++ [pre ++ new ++ post] /\
    length (pre ++ new ++ post) = length C - length old + length new /\
    (forall f, target w = Some f ->
       has_CR (f_bytes f) = false -> linesep w = [LF] ->
       f_bytes f = pre ++ old ++ post /\
       bytes_of (snd (apply old new w)) = Some (pre ++ new ++ post) /\
       length (pre ++ new ++ post) =
         length (f_bytes f) - length old + length new).
Proof.
  intros HC HW Hone.
  destruct (count_one_unique old C Hone) as (i & F & Huniq).
  assert (contains old C = true) as Hin by (unfold contains; now rewrite F).
  destruct (replace1_found old new C i F) as (pre & post & E & L & R).
  assert (length (pre ++ new ++ post) = length C - length old + length new)
    as Hlen by (rewrite <- R; now apply replace1_length).
  exists pre, post. split; [exact E|]. split.
  - intros pre' post' E'. apply (unique_split old C pre post pre' post' E E').
    rewrite L. apply Huniq. now exists pre', post'.
  - rewrite (apply_present old new w C HC Hin HW). simpl fst. simpl snd.
    rewrite patched_trace, patched_bytes, written_app, R. simpl.
    split; [reflexivity|]. split; [reflexivity|]. split; [exact Hlen|].
    intros f HT HnoCR Hls.
    apply text_of_Some in HC as (f' & HT' & _ & HCf).
    assert (f' = f) by congruence. subst f'.
    rewrite (universal_newlines_id (f_bytes f) HnoCR) in HCf.
    rewrite Hls, translate_out_LF, <- HCf. now rewrite <- E.
Qed.

Lemma apply_exact_single_occurrence_witness :
  exists pre post,
    lit "function greet() { return 'hi'; }" = pre ++ lit "'hi'" ++ post /\
    bytes_of (snd (apply (lit "'hi'") (lit "'hello'")
                     (posix_file (lit "function greet() { return 'hi'; }")))) =
      Some (pre ++ lit "'hello'" ++ post).
Proof.
  destruct (apply_exact_single_occurrence (lit "'hi'") (lit "'hello'")
              (posix_file (lit "function greet() { return 'hi'; }"))
              (lit "function greet() { return 'hi'; }")
              eq_refl eq_refl eq_refl)
    as (pre & post & E & _ & _ & _ & _ & B).
  exists pre, post. split; [exact E|].
  exact (proj1 (proj2 (B (mkfile (lit "function greet() { return 'hi'; }") true true)
                         eq_refl eq_refl eq_refl))).
Defined.

(** C2, as stated, fails on the bytes of a file with CR LF line ends: the
    file holds "a\r\nb" and [old = "a\nb"].  [old] is no substring of the
    content of the file, yet it is found in the text read from it; the run
    completes and overwrites the file. *)
Lemma absent_in_bytes_counterexample :
  let bytes := lit "a" ++ [CR; LF] ++ lit "b" in
  let r := apply (lit "a" ++ [LF] ++ lit "b") (lit "c") (posix_file bytes) in
  contains (lit "a" ++ [LF] ++ lit "b") bytes = false /\
  fst r = Completed /\
  fst r <> BlockNotFound /\
  written (trace (snd r)) = [lit "c"] /\
  bytes_of (snd r) = Some (lit "c") /\
  bytes_of (snd r) <> Some bytes.
Proof. repeat split; discriminate. Qed.

(** C2, amended.  If [old] does not occur in the text of a readable file,
    as [read_text] returns it (CR LF and CR read as LF), which is the case
    in particular when the file holds no CR and [old] is no substring of
    its content, the run ends in [BlockNotFound]; the read is the only
    operation it performs, so no write operation is added to the trace and
    the target is the same file with the same bytes. *)
Theorem apply_absent_block_untouched
    (old new : str) (w : World) (f : file) :
  target w = Some f ->
  f_readable f = true ->
  contains old (universal_newlines (f_bytes f)) = false \/
  (has_CR (f_bytes f) = false /\ contains old (f_bytes f) = false) ->
  fst (apply old new w) = BlockNotFound /\
  trace (snd (apply old new w)) = trace w ++ [EvOpenRead] /\
  write_ops (trace (snd (apply old new w))) = write_ops (trace w) /\
  written (trace (snd (apply old new w))) = written (trace w) /\
  target (snd (apply old new w)) = Some f /\
  bytes_of (snd (apply old new w)) = Some (f_bytes f).
Proof.
  intros HT HR Habsent.
  assert (contains old (universal_newlines (f_bytes f)) = false) as Hab.
  { destruct Habsent as [H | [HnoCR H]]; [exact H|].
    now rewrite (universal_newlines_id (f_bytes f) HnoCR). }
  assert (text_of w = Some (universal_newlines (f_bytes f))) as HC
      by (unfold text_of; now rewrite HT, HR).
  rewrite (apply_absent old new w _ HC Hab). unfold bytes_of. simpl.
  rewrite write_ops_app, written_app, HT. simpl. now rewrite !app_nil_r.
Qed.

Lemma apply_absent_block_untouched_witness :
  fst (apply (lit "'hi'") (lit "'hello'")
         (posix_file (lit "function greet() { return 'hello'; }")))
  = BlockNotFound /\
  bytes_of (snd (apply (lit "'hi'") (lit "'hello'")
                   (posix_file (lit "function greet() { return 'hello'; }"))))
  = Some (lit "function greet() { return 'hello'; }").
Proof.
  destruct (apply_absent_block_untouched (lit "'hi'") (lit "'hello'")
              (posix_file (lit "function greet() { return 'hello'; }"))
              (mkfile (lit "function greet() { return 'hello'; }") true true)
              eq_refl eq_refl (or_intror (conj eq_refl eq_refl)))
    as (O & _ & _ & _ & _ & B).
  split; [exact O | exact B].
Defined.




(** The scenario of the specification: the second run of the greet patch
    does end in [BlockNotFound]. *)
Example reapply_greet :
  let w0 := posix_file (lit "function greet() { return 'hi'; }") in
  let r1 := apply (lit "'hi'") (lit "'hello'") w0 in
  let r2 := apply (lit "'hi'") (lit "'hello'") (snd r1) in
  fst r1 = Completed /\
  bytes_of (snd r1) = Some (lit "function greet() { return 'hello'; }") /\
  fst r2 = BlockNotFound /\
  bytes_of (snd r2) = bytes_of (snd r1).
Proof. repeat split. Qed.



(** C4, as stated, fails: with the empty [old] and [new = "x"] on a file holding
    "ab" nothing is rejected; the file is read, opened for writing and
    written, and ends up as "xab". *)
Lemma empty_block_counterexample :
  let r := apply [] (lit "x") (posix_file (lit "ab")) in
  fst r = Completed /\
  trace (snd r) = [EvOpenRead; EvOpenWrite; EvWriteData (lit "xab")] /\
  trace (snd r) <> trace (posix_file (lit "ab")) /\
  bytes_of (snd r) = Some (lit "xab").
Proof. repeat split; discriminate. Qed.

(** C4, amended.  The script has no check of the empty block.  With
    the empty [old] the run always starts with the read of the target; when the
    file is readable the presence check passes, so the run never stops
    between the read and the open for writing, and when the file is
    writable too the open and the write follow and the run completes. *)
Theorem empty_block_not_rejected (new : str) (w : World) :
  (exists rest, trace (snd (apply [] new w)) = trace w ++ EvOpenRead :: rest) /\
  (forall C, text_of w = Some C ->
     exists rest,
       trace (snd (apply [] new w)) = trace w ++ EvOpenRead :: EvOpenWrite :: rest) /\
  (forall C, text_of w = Some C -> writable w = true ->
     fst (apply [] new w) = Completed /\
     trace (snd (apply [] new w)) =
       trace w ++ [EvOpenRead; EvOpenWrite; EvWriteData (new ++ C)]).
Proof.
  split; [|split].
  - destruct (text_of w) as [C|] eqn:HC.
    + destruct (writable w) eqn:HW.
      * rewrite (apply_present [] new w C HC (contains_nil C) HW). simpl snd.
        rewrite patched_trace. eauto.
      * rewrite (apply_unwritable [] new w C HC (contains_nil C) HW). simpl.
        rewrite <- app_assoc. simpl. eauto.
    + destruct (apply_unreadable [] new w HC) as [e ->]. simpl. eauto.
  - intros C HC. destruct (writable w) eqn:HW.
    + rewrite (apply_present [] new w C HC (contains_nil C) HW). simpl snd.
      rewrite patched_trace. eauto.
    + rewrite (apply_unwritable [] new w C HC (contains_nil C) HW). simpl.
      rewrite <- app_assoc. simpl. eauto.
  - intros C HC HW.
    rewrite (apply_present [] new w C HC (contains_nil C) HW). simpl fst.
    simpl snd. now rewrite patched_trace, replace1_nil.
Qed.

Lemma empty_block_not_rejected_witness :
  fst (apply [] (lit "x") (posix_file (lit "ab"))) = Completed /\
  trace (snd (apply [] (lit "x") (posix_file (lit "ab")))) =
    trace (posix_file (lit "ab")) ++
    [EvOpenRead; EvOpenWrite; EvWriteData (lit "x" ++ lit "ab")].
Proof.
  exact (proj2 (proj2 (empty_block_not_rejected (lit "x") (posix_file (lit "ab"))))
           (lit "ab") eq_refl eq_refl).
Defined.

(** C10, as stated, fails on the bytes of a file with CR LF line ends, on a
    POSIX system: the file holds "a\r\nb", [old] is empty and [new = "x"].
    The run completes and stores "xa\nb", which is not "x" followed by the
    content the file had. *)
Lemma empty_block_newline_counterexample :
  let bytes := lit "a" ++ [CR; LF] ++ lit "b" in
  let r := apply [] (lit "x") (posix_file bytes) in
  fst r = Completed /\
  bytes_of (snd r) = Some (lit "xa" ++ [LF] ++ lit "b") /\
  bytes_of (snd r) <> Some (lit "x" ++ bytes).
Proof. repeat split; discriminate. Qed.

(** C10, amended.  With the empty [old] the presence check passes on every
    text, so no run ends in [BlockNotFound]; on a readable and writable
    file with text [C], as [read_text] returns it, the run completes and
    the text handed to [write_text] is [new ++ C]: [new] at index 0, then
    [C] unchanged.  When the file holds no CR and [os.linesep] is LF, the
    content stored is [new] followed by the unchanged content of the
    file. *)
Theorem empty_block_prepends (new : str) (w : World) :
  fst (apply [] new w) <> BlockNotFound /\
  (forall C, contains [] C = true /\ replace1 [] new C = new ++ C) /\
  (forall C, text_of w = Some C -> writable w = true ->
     fst (apply [] new w) = Completed /\
     written (trace (snd (apply [] new w))) = written (trace w) ++ [new ++ C]) /\
  (forall f, target w = Some f ->
     f_readable f = true -> f_writable f = true ->
     has_CR (f_bytes f) = false -> linesep w = [LF] ->
     fst (apply [] new w) = Completed /\
     bytes_of (snd (apply [] new w)) = Some (new ++ f_bytes f)).
Proof.
  split; [|split; [|split]].
  - destruct (text_of w) as [C|] eqn:HC.
    + destruct (writable w) eqn:HW.
      * rewrite (apply_present [] new w C HC (contains_nil C) HW). discriminate.
      * rewrite (apply_unwritable [] new w C HC (contains_nil C) HW). discriminate.
    + destruct (apply_unreadable [] new w HC) as [e ->]. discriminate.
  - intros C. split; [apply contains_nil | apply replace1_nil].
  - intros C HC HW.
    rewrite (apply_present [] new w C HC (contains_nil C) HW). simpl fst.
    simpl snd. rewrite patched_trace, written_app, replace1_nil.
    now simpl.
  - intros f HT HR HWf HnoCR Hls.
    assert (text_of w = Some (f_bytes f)) as HC.
    { unfold text_of. rewrite HT, HR.
      now rewrite (universal_newlines_id (f_bytes f) HnoCR). }
    assert (writable w = true) as HW by (unfold writable; now rewrite HT).
    rewrite (apply_present [] new w _ HC (contains_nil _) HW). simpl fst.
    simpl snd. now rewrite patched_bytes, replace1_nil, Hls, translate_out_LF.
Qed.

Lemma empty_block_prepends_witness :
  fst (apply [] (lit "x") (posix_file (lit "ab"))) = Completed /\
  bytes_of (snd (apply [] (lit "x") (posix_file (lit "ab")))) =
    Some (lit "x" ++ lit "ab").
Proof.
  exact (proj2 (proj2 (proj2 (empty_block_prepends (lit "x") (posix_file (lit "ab")))))
           (mkfile (lit "ab") true true) eq_refl eq_refl eq_refl eq_refl eq_refl).
Defined.

(** C6, as stated, fails on a POSIX system for a file with CR LF line ends:
    the bytes are "old\r\nrest", [old = "old"], [new = "new"].  The bytes
    after the occurrence are "\r\nrest"; the run stores "new\nrest".  The
    match is not on the bytes either: "a\nb" is found in a file whose bytes
    are "a\r\nb", and "\r\n" is not. *)
Lemma newline_counterexample :
  let bytes := lit "old" ++ [CR; LF] ++ lit "rest" in
  let r := apply (lit "old") (lit "new") (posix_file bytes) in
  bytes = [] ++ lit "old" ++ ([CR; LF] ++ lit "rest") /\
  fst r = Completed /\
  bytes_of (snd r) = Some (lit "new" ++ [LF] ++ lit "rest") /\
  bytes_of (snd r) <> Some ([] ++ lit "new" ++ ([CR; LF] ++ lit "rest")) /\
  contains (lit "a" ++ [LF] ++ lit "b") (lit "a" ++ [CR; LF] ++ lit "b") = false /\
  fst (apply (lit "a" ++ [LF] ++ lit "b") (lit "c")
         (posix_file (lit "a" ++ [CR; LF] ++ lit "b"))) = Completed /\
  fst (apply [CR; LF] (lit "c")
         (posix_file (lit "a" ++ [CR; LF] ++ lit "b"))) = BlockNotFound.
Proof. repeat split; discriminate. Qed.

(** C6, amended.  The script matches and substitutes on the text that
    [read_text] returns, character for character, and hands the text
    outside the replaced occurrence to [write_text] as it was read; but the
    text is the bytes with CR LF and CR turned into LF, and it is stored
    with each LF turned into [os.linesep].  When the bytes hold no CR and
    [os.linesep] is LF, the text is the bytes, the match is a match on the
    bytes, and the bytes outside the replaced occurrence are stored as
    they were read. *)
Theorem apply_exact_up_to_newlines
    (old new : str) (w : World) (f : file) :
  target w = Some f ->
  f_readable f = true ->
  f_writable f = true ->
  let data := universal_newlines (f_bytes f) in
  (find old data = None ->
   fst (apply old new w) = BlockNotFound /\ target (snd (apply old new w)) = Some f) /\
  (forall i, find old data = Some i ->
     firstn (length old) (skipn i data) = old /\
     fst (apply old new w) = Completed /\
     bytes_of (snd (apply old new w)) =
       Some (translate_out (linesep w)
               (firstn i data ++ new ++ skipn (i + length old) data))) /\
  (has_CR (f_bytes f) = false -> linesep w = [LF] ->
   data = f_bytes f /\
   forall i, find old (f_bytes f) = Some i ->
     bytes_of (snd (apply old new w)) =
       Some (firstn i (f_bytes f) ++ new ++ skipn (i + length old) (f_bytes f))).
Proof.
  intros HT HR HWf data.
  assert (text_of w = Some data) as HC by (unfold text_of; now rewrite HT, HR).
  assert (writable w = true) as HW by (unfold writable; now rewrite HT).
  assert (forall i, find old data = Some i ->
            fst (apply old new w) = Completed /\
            bytes_of (snd (apply old new w)) =
              Some (translate_out (linesep w)
                      (firstn i data ++ new ++ skipn (i + length old) data)))
    as Hfound.
  { intros i F.
    assert (contains old data = true) as Hin by (unfold contains; now rewrite F).
    rewrite (apply_present old new w data HC Hin HW). simpl fst. simpl snd.
    rewrite patched_bytes. unfold replace1. now rewrite F. }
  split; [|split].
  - intros F.
    assert (contains old data = false) as Hab by (unfold contains; now rewrite F).
    now rewrite (apply_absent old new w data HC Hab).
  - intros i F. split; [|now apply Hfound].
    destruct (find_Some old data i F) as [Hocc _].
    apply occurs_at_iff in Hocc as [_ Hsw].
    apply startswith_inv in Hsw as [post ->].
    now rewrite firstn_app, Nat.sub_diag, firstn_all, app_nil_r.
  - intros HnoCR Hls.
    assert (data = f_bytes f) as Hdata by now apply universal_newlines_id.
    split; [exact Hdata|]. intros i F. rewrite <- Hdata in F |- *.
    destruct (Hfound i F) as [_ ->]. now rewrite Hls, translate_out_LF.
Qed.

Lemma apply_exact_up_to_newlines_witness :
  bytes_of (snd (apply (lit "'hi'") (lit "'hello'")
                   (posix_file (lit "function greet() { return 'hi'; }")))) =
  Some (firstn 26 (lit "function greet() { return 'hi'; }") ++ lit "'hello'" ++
        skipn (26 + length (lit "'hi'")) (lit "function greet() { return 'hi'; }")).
Proof.
  exact (proj2 (proj2 (proj2
           (apply_exact_up_to_newlines (lit "'hi'") (lit "'hello'")
              (posix_file (lit "function greet() { return 'hi'; }"))
              (mkfile (lit "function greet() { return 'hi'; }") true true)
              eq_refl eq_refl eq_refl)) eq_refl eq_refl) 26 eq_refl).
Defined.

(** C7, as stated, fails: the file holds "a b a", [old = "a"], [new = "x"],
    and the run is stopped after three operations, when the file has been
    opened for writing and the text "x b a" has not been written yet.  The
    file is then empty: neither its old content nor the new one. *)
Lemma interrupted_write_counterexample :
  let w0 := posix_file (lit "a b a") in
  let w3 := interrupted (lit "a") (lit "x") 3 w0 in
  fst (run (lit "a") (lit "x") 3 (Line4, w0)) = Line186_write (lit "x b a") /\
  bytes_of w0 = Some (lit "a b a") /\
  bytes_of w3 = Some [] /\
  bytes_of w3 <> bytes_of w0.
Proof. repeat split; discriminate. Qed.

(** C7, amended.  The script has no temporary file and no rename:
    [write_text] opens the target itself, which truncates it, and then
    writes.  For a readable file whose text contains [old]: a run stopped
    after at most two operations (before the open) leaves the target as it
    was; if the file is not writable the open fails and the target stays as
    it was however long the run goes on; if it is writable, a run stopped
    after three operations (between the open and the write) leaves the file
    empty, and after four operations the run is over and the file holds
    the whole new content. *)
Theorem interrupted_write_states
    (old new : str) (w : World) (C : str) (k : nat) :
  text_of w = Some C ->
  contains old C = true ->
  (k <= 2 -> target (interrupted old new k w) = target w) /\
  (writable w = false ->
   target (interrupted old new k w) = target w /\
   (3 <= k -> fst (run old new k (Line4, w)) = Halt (WriteRaised PermissionError))) /\
  (writable w = true ->
   (k = 3 -> bytes_of (interrupted old new k w) = Some []) /\
   (4 <= k ->
    fst (run old new k (Line4, w)) = Halt Completed /\
    bytes_of (interrupted old new k w) =
      Some (translate_out (linesep w) (replace1 old new C)))).
Proof.
  intros HC Hin. unfold interrupted.
  assert (run old new 2 (Line4, w) =
          (Line186_open (replace1 old new C), log EvOpenRead w)) as H2.
  { cbn [run step]. rewrite (read_text_ok w C HC). cbn [step]. now rewrite Hin. }
  assert (forall j, j <= 2 -> target (snd (run old new j (Line4, w))) = target w)
    as Hearly.
  { intros [|[|[|j]]] Hj; [reflexivity| |now rewrite H2|lia].
    cbn [run step]. now rewrite (read_text_ok w C HC). }
  split; [apply Hearly|]. split.
  - intros HW.
    assert (run old new 3 (Line4, w) =
            (Halt (WriteRaised PermissionError),
             log EvOpenWrite (log EvOpenRead w))) as H3.
    { change 3 with (2 + 1). rewrite run_add, H2. cbn [run step].
      now rewrite (open_w_fails (log EvOpenRead w) HW). }
    destruct (Nat.le_gt_cases k 2) as [Hk|Hk].
    + split; [now apply Hearly | lia].
    + replace k with (3 + (k - 3)) by lia.
      rewrite run_add, H3, run_halted. now split.
  - intros HW. split.
    + intros ->. change 3 with (2 + 1). rewrite run_add, H2. cbn [run step].
      rewrite (open_w_ok (log EvOpenRead w) HW). unfold bytes_of. simpl.
      now destruct (target w).
    + intros Hk. rewrite (run_ge_4 old new k w Hk).
      rewrite (apply_present old new w C HC Hin HW). simpl fst. simpl snd.
      now rewrite patched_bytes.
Qed.

Lemma interrupted_write_states_witness :
  bytes_of (interrupted (lit "a") (lit "x") 3 (posix_file (lit "a b a"))) = Some [].
Proof.
  exact (proj1 (proj2 (proj2
           (interrupted_write_states (lit "a") (lit "x")
              (posix_file (lit "a b a")) (lit "a b a") 3 eq_refl eq_refl))
           eq_refl) eq_refl).
Defined.

(** C8 (missing or unreadable target).  If nothing exists at the path, or
    the file there is not readable, the run stops at its first operation
    with the [OSError] that [read_text] raises ([FileNotFoundError] in the
    first case, [PermissionError] in the second): the specification's
    [TargetNotFound].  The failed read is all the run did: no write
    operation is added to the trace and the target is as it was. *)
Theorem apply_target_not_found (old new : str) (w : World) :
  target w = None \/ (exists f, target w = Some f /\ f_readable f = false) ->
  TargetNotFound (fst (apply old new w)) /\
  (target w = None -> fst (apply old new w) = ReadRaised FileNotFoundError) /\
  (target w <> None -> fst (apply old new w) = ReadRaised PermissionError) /\
  run old new 1 (Line4, w) = (Halt (fst (apply old new w)), snd (apply old new w)) /\
  trace (snd (apply old new w)) = trace w ++ [EvOpenRead] /\
  write_ops (trace (snd (apply old new w))) = write_ops (trace w) /\
  target (snd (apply old new w)) = target w.
Proof.
  intros H. unfold TargetNotFound, apply. cbn [run step].
  assert (exists e, read_text w = (inl e, log EvOpenRead w) /\
                    (target w = None -> e = FileNotFoundError) /\
                    (target w <> None -> e = PermissionError)) as (e & -> & H1 & H2).
  { unfold read_text. destruct H as [-> | (f & -> & ->)].
    - exists FileNotFoundError. repeat split. congruence.
    - exists PermissionError. repeat split. discriminate. }
  simpl. rewrite write_ops_app. simpl. rewrite app_nil_r.
  repeat split; eauto; intros; f_equal; auto.
Qed.

Lemma apply_target_not_found_witness :
  TargetNotFound (fst (apply (lit "a") (lit "x") (mkWorld [LF] None []))) /\
  write_ops (trace (snd (apply (lit "a") (lit "x") (mkWorld [LF] None [])))) =
    write_ops (trace (mkWorld [LF] None [])).
Proof.
  destruct (apply_target_not_found (lit "a") (lit "x") (mkWorld [LF] None [])
              (or_introl eq_refl)) as (T & _ & _ & _ & _ & W & _).
  split; [exact T | exact W].
Defined.

(** C9 (determinism).  Two runs with the same [old] and [new], on files
    with the same text and the same write permission under the same
    [os.linesep], whatever was done before either of them, end in the same
    outcome, which is completion, [BlockNotFound] or the failure to open
    the file for writing; they perform the same operations; and when they
    complete they leave the same bytes. *)
Theorem apply_deterministic
    (old new : str) (w1 w2 : World) (C : str) :
  text_of w1 = Some C ->
  text_of w2 = Some C ->
  writable w1 = writable w2 ->
  linesep w1 = linesep w2 ->
  fst (apply old new w1) = fst (apply old new w2) /\
  (fst (apply old new w1) = Completed \/
   fst (apply old new w1) = BlockNotFound \/
   fst (apply old new w1) = WriteRaised PermissionError) /\
  (exists ops,
     trace (snd (apply old new w1)) = trace w1 ++ ops /\
     trace (snd (apply old new w2)) = trace w2 ++ ops) /\
  (fst (apply old new w1) = Completed ->
   bytes_of (snd (apply old new w1)) = bytes_of (snd (apply old new w2))) /\
  (fst (apply old new w1) = BlockNotFound <-> contains old C = false).
Proof.
  intros H1 H2 HW Hls.
  destruct (contains old C) eqn:Hin.
  - destruct (writable w1) eqn:HW1; symmetry in HW.
    + rewrite (apply_present old new w1 C H1 Hin HW1).
      rewrite (apply_present old new w2 C H2 Hin HW). simpl fst. simpl snd.
      rewrite !patched_trace, !patched_bytes, Hls.
      repeat split; eauto; discriminate.
    + rewrite (apply_unwritable old new w1 C H1 Hin HW1).
      rewrite (apply_unwritable old new w2 C H2 Hin HW). simpl.
      rewrite <- !app_assoc. simpl.
      repeat split; eauto; discriminate.
  - rewrite (apply_absent old new w1 C H1 Hin).
    rewrite (apply_absent old new w2 C H2 Hin). simpl.
    repeat split; eauto; discriminate.
Qed.

Lemma apply_deterministic_witness :
  fst (apply (lit "a") (lit "x")
         (mkWorld [LF] (Some (mkfile (lit "a" ++ [CR; LF] ++ lit "b") true true))
                  [EvOpenRead])) =
  fst (apply (lit "a") (lit "x") (posix_file (lit "a" ++ [LF] ++ lit "b"))).
Proof.
  exact (proj1 (apply_deterministic (lit "a") (lit "x")
                  (mkWorld [LF] (Some (mkfile (lit "a" ++ [CR; LF] ++ lit "b") true true))
                           [EvOpenRead])
                  (posix_file (lit "a" ++ [LF] ++ lit "b"))
                  (lit "a" ++ [LF] ++ lit "b")
                  eq_refl eq_refl eq_refl eq_refl)).
Defined.

(** * Further properties of the script *)

Module CaseFacts.

(** The four ways a run can go. *)
Lemma apply_cases (old new : str) (w : World) :
  (text_of w = None /\
   exists e, apply old new w = (ReadRaised e, log EvOpenRead w)) \/
  (exists C, text_of w = Some C /\ contains old C = false /\
             apply old new w = (BlockNotFound, log EvOpenRead w)) \/
  (exists C, text_of w = Some C /\ contains old C = true /\
             writable w = false /\
             apply old new w =
             (WriteRaised PermissionError, log EvOpenWrite (log EvOpenRead w))) \/
  (exists C, text_of w = Some C /\ contains old C = true /\
             writable w = true /\
             apply old new w = (Completed, patched (replace1 old new C) w)).
Proof.
  destruct (text_of w) as [C|] eqn:HC.
  - right. destruct (contains old C) eqn:Hin.
    + right. destruct (writable w) eqn:HW.
      * right. exists C. repeat split; trivial. now apply (apply_present old new w C).
      * left. exists C. repeat split; trivial. now apply (apply_unwritable old new w C).
    + left. exists C. repeat split; trivial. now apply (apply_absent old new w C).
  - left. split; [reflexivity|]. now apply apply_unreadable.
Qed.

(** What was done before a run has no influence on it. *)
Lemma apply_after_log (old new : str) (e : event) (w : World) :
  fst (apply old new (log e w)) = fst (apply old new w) /\
  target (snd (apply old new (log e w))) = target (snd (apply old new w)).
Proof.
  destruct w as [ls [[bytes r wr]|] tr];
    unfold apply, write_text, open_w, read_text; simpl; [|now split].
  destruct r; [|now split].
  destruct (negb (contains old (universal_newlines bytes))); [now split|].
  simpl. destruct wr; now split.
Qed.

Lemma replace1_same (old s : str) : replace1 old old s = s.
Proof.
  destruct (contains old s) eqn:Hin.
  - unfold contains in Hin. destruct (find old s) as [i|] eqn:F; [|discriminate].
    now destruct (replace1_found old old s i F) as (pre & post & E & _ & ->).
  - now apply replace1_absent.
Qed.

(** Putting [old] back where [new] was spliced in, when [new] is found
    there first. *)
Lemma replace1_inverse (old new s : str) (i : nat) :
  find old s = Some i ->
  find new (replace1 old new s) = Some i ->
  replace1 new old (replace1 old new s) = s.
Proof.
  intros F G.
  destruct (replace1_found old new s i F) as (pre & post & E & L & R).
  rewrite R in G |- *.
  destruct (replace1_found new old (pre ++ new ++ post) i G)
    as (pre' & post' & E' & L' & ->).
  destruct (unique_split new (pre ++ new ++ post) pre post pre' post'
              eq_refl E') as [-> ->]; [congruence|]. now symmetry.
Qed.

(** A text without CR cannot contain a block with one. *)
Lemma contains_has_CR (old s : str) :
  contains old s = true -> has_CR s = false -> has_CR old = false.
Proof.
  intros Hin Hs. apply contains_iff in Hin as (pre & post & ->).
  rewrite !has_CR_app in Hs.
  apply orb_false_iff in Hs as [_ Hs]. now apply orb_false_iff in Hs as [Hs _].
Qed.

Lemma text_of_no_CR (w : World) (C : str) :
  text_of w = Some C -> has_CR C = false.
Proof.
  intros H. apply text_of_Some in H as (f & _ & _ & ->).
  apply universal_newlines_no_CR.
Qed.

Lemma replace1_no_CR (old new s : str) :
  has_CR s = false -> has_CR new = false -> has_CR (replace1 old new s) = false.
Proof.
  intros Hs Hnew. destruct (contains old s) eqn:Hin.
  - unfold contains in Hin. destruct (find old s) as [i|] eqn:F; [|discriminate].
    destruct (replace1_found old new s i F) as (pre & post & E & _ & ->).
    rewrite E, !has_CR_app in Hs.
    apply orb_false_iff in Hs as [Hpre Hs].
    apply orb_false_iff in Hs as [_ Hpost].
    now rewrite !has_CR_app, Hpre, Hnew, Hpost.
  - now rewrite replace1_absent.
Qed.

End CaseFacts.

Import CaseFacts.

(** ** Runs in a failing environment *)

Module FaultFacts.

(** Without faults [apply_in] is [apply]. *)
Lemma apply_in_no_faults (old new : str) (w : World) :
  apply_in no_faults old new w = apply old new w.
Proof.
  destruct w as [ls [[bytes r wr]|] tr];
    unfold apply_in, apply, write_text_in, write_text, write_data_in,
           read_text_in, read_text, open_w; simpl; [|reflexivity].
  destruct r; [|reflexivity].
  destruct (negb (contains old (universal_newlines bytes))); [reflexivity|].
  simpl. now destruct wr.
Qed.

(** The seven ways a run can go. *)
Lemma apply_in_cases (env : Env) (old new : str) (w : World) :
  (target w = None /\
   apply_in env old new w = (ReadRaised FileNotFoundError, log EvOpenRead w)) \/
  (exists f, target w = Some f /\ f_readable f = false /\
     apply_in env old new w = (ReadRaised PermissionError, log EvOpenRead w)) \/
  (exists f, target w = Some f /\ f_readable f = true /\
     decodable env (f_bytes f) = false /\
     apply_in env old new w = (DecodeRaised, log EvOpenRead w)) \/
  (exists f, target w = Some f /\ f_readable f = true /\
     decodable env (f_bytes f) = true /\
     contains old (universal_newlines (f_bytes f)) = false /\
     apply_in env old new w = (BlockNotFound, log EvOpenRead w)) \/
  (exists f, target w = Some f /\ f_readable f = true /\
     decodable env (f_bytes f) = true /\
     contains old (universal_newlines (f_bytes f)) = true /\
     f_writable f = false /\
     apply_in env old new w =
     (WriteRaised PermissionError, log EvOpenWrite (log EvOpenRead w))) \/
  (exists f n, target w = Some f /\ f_readable f = true /\
     decodable env (f_bytes f) = true /\
     contains old (universal_newlines (f_bytes f)) = true /\
     f_writable f = true /\ write_fault env = Some n /\
     apply_in env old new w =
     (WriteDataRaised,
      partly_patched n (replace1 old new (universal_newlines (f_bytes f))) w)) \/
  (exists f, target w = Some f /\ f_readable f = true /\
     decodable env (f_bytes f) = true /\
     contains old (universal_newlines (f_bytes f)) = true /\
     f_writable f = true /\ write_fault env = None /\
     apply_in env old new w =
     (Completed, patched (replace1 old new (universal_newlines (f_bytes f))) w)).
Proof.
  destruct w as [ls [f|] tr];
    unfold apply_in, write_text_in, write_data_in, read_text_in, open_w;
    simpl; [|now left].
  right. destruct (f_readable f) eqn:R; [|left; now exists f].
  right. destruct (decodable env (f_bytes f)) eqn:D; [|left; now exists f].
  right.
  destruct (contains old (universal_newlines (f_bytes f))) eqn:Hin; simpl;
    [|left; now exists f].
  right. destruct (f_writable f) eqn:W; [|left; now exists f].
  right. destruct (write_fault env) as [n|] eqn:Fw.
  - left. exists f, n. now repeat split.
  - right. exists f. now repeat split.
Qed.

Lemma partly_patched_trace (n : nat) (text : str) (w : World) :
  trace (partly_patched n text w) =
  trace w ++ [EvOpenRead; EvOpenWrite; EvWriteData text].
Proof. simpl. now rewrite <- !app_assoc. Qed.

Lemma partly_patched_bytes (n : nat) (text : str) (w : World) :
  bytes_of (partly_patched n text w) =
  Some (firstn n (translate_out (linesep w) text)).
Proof. unfold bytes_of. simpl. now destruct (target w). Qed.


(** Reading changes a text exactly when it holds a CR. *)
Lemma universal_newlines_fixed (bytes : str) :
  universal_newlines bytes = bytes <-> has_CR bytes = false.
Proof.
  split.
  - intros <-. apply universal_newlines_no_CR.
  - apply universal_newlines_id.
Qed.

End FaultFacts.

Import FaultFacts.

(** X1.  Whatever the environment does, a run that does not complete
    leaves the target as it found it and hands no text to [f.write], unless
    it failed in the write after the open: then the file holds the first
    bytes, possibly none, of the new content.  The outcome tells the two
    apart. *)
Theorem apply_failure_leaves_target
    (env : Env) (old new : str) (w : World) :
  fst (apply_in env old new w) <> Completed ->
  (fst (apply_in env old new w) <> WriteDataRaised ->
   target (snd (apply_in env old new w)) = target w /\
   written (trace (snd (apply_in env old new w))) = written (trace w)) /\
  (fst (apply_in env old new w) = WriteDataRaised ->
   exists C n,
     text_of w = Some C /\ write_fault env = Some n /\
     written (trace (snd (apply_in env old new w))) =
       written (trace w) ++ [replace1 old new C] /\
     bytes_of (snd (apply_in env old new w)) =
       Some (firstn n (translate_out (linesep w) (replace1 old new C)))).
Proof.
  intros Hfail.
  destruct (apply_in_cases env old new w)
    as [(_ & E) | [(f & _ & _ & E) | [(f & _ & _ & _ & E)
       | [(f & _ & _ & _ & _ & E) | [(f & _ & _ & _ & _ & _ & E)
       | [(f & n & T & R & _ & _ & _ & Fw & E)
       | (f & _ & _ & _ & _ & _ & _ & E)]]]]]];
    rewrite E in Hfail |- *; simpl fst in *; simpl snd;
    try (split; [intros _; simpl; rewrite ?written_app; simpl;
                 now rewrite ?app_nil_r
                | discriminate]).
  - split; [congruence|]. intros _.
    exists (universal_newlines (f_bytes f)), n.
    rewrite partly_patched_trace, partly_patched_bytes, written_app.
    unfold text_of. rewrite T, R. now repeat split.
Qed.

Lemma apply_failure_leaves_target_witness :
  bytes_of (snd (apply_in (mkEnv (fun _ => true) (Some 2)) (lit "a") (lit "xyz")
                   (posix_file (lit "a b a")))) =
  Some (firstn 2 (translate_out [LF] (replace1 (lit "a") (lit "xyz") (lit "a b a")))).
Proof.
  assert (fst (apply_in (mkEnv (fun _ => true) (Some 2)) (lit "a") (lit "xyz")
                 (posix_file (lit "a b a"))) <> Completed) as H
      by (simpl; discriminate).
  destruct (proj2 (apply_failure_leaves_target
                     (mkEnv (fun _ => true) (Some 2)) (lit "a") (lit "xyz")
                     (posix_file (lit "a b a")) H) eq_refl)
    as (C & n & HC & Hn & _ & B).
  injection HC as <-. injection Hn as <-. exact B.
Defined.

(** X2.  A run completes exactly when the target is a readable file whose
    bytes the codec decodes, whose text contains [old], which can be opened
    for writing, and the write is not cut short. *)
Theorem apply_completes_iff (env : Env) (old new : str) (w : World) :
  fst (apply_in env old new w) = Completed <->
  exists f,
    target w = Some f /\ f_readable f = true /\
    decodable env (f_bytes f) = true /\
    contains old (universal_newlines (f_bytes f)) = true /\
    f_writable f = true /\ write_fault env = None.
Proof.
  destruct (apply_in_cases env old new w)
    as [(T & E) | [(f & T & R & E) | [(f & T & R & D & E)
       | [(f & T & R & D & Hin & E) | [(f & T & R & D & Hin & W & E)
       | [(f & n & T & R & D & Hin & W & Fw & E)
       | (f & T & R & D & Hin & W & Fw & E)]]]]]];
    rewrite E; simpl; split; try discriminate; try reflexivity;
    try (intros (g & Tg & Rg & Dg & Hg & Wg & Fg);
         assert (g = f) by congruence; subst g; congruence).
  - intros (g & Tg & _). congruence.
  - intros _. now exists f.
Qed.

Lemma apply_completes_iff_witness :
  fst (apply_in no_faults (lit "a") (lit "x") (posix_file (lit "a b a"))) = Completed.
Proof.
  apply (proj2 (apply_completes_iff no_faults (lit "a") (lit "x")
                  (posix_file (lit "a b a")))).
  exists (mkfile (lit "a b a") true true). repeat split.
Defined.

(** X3.  On a readable file that cannot be opened for writing, the
    presence check still comes first: without [old] in the text the run
    ends in [BlockNotFound] after the read alone; with [old] in the text it
    goes on to the open, which raises [PermissionError], and the file keeps
    its bytes. *)
Theorem apply_unwritable_target (old new : str) (w : World) (C : str) :
  text_of w = Some C ->
  writable w = false ->
  (contains old C = false ->
   fst (apply old new w) = BlockNotFound /\
   trace (snd (apply old new w)) = trace w ++ [EvOpenRead]) /\
  (contains old C = true ->
   fst (apply old new w) = WriteRaised PermissionError /\
   trace (snd (apply old new w)) = trace w ++ [EvOpenRead; EvOpenWrite] /\
   target (snd (apply old new w)) = target w).
Proof.
  intros HC HW. split; intros Hin.
  - now rewrite (apply_absent old new w C HC Hin).
  - rewrite (apply_unwritable old new w C HC Hin HW). simpl.
    now rewrite <- app_assoc.
Qed.

Lemma apply_unwritable_target_witness :
  fst (apply (lit "a") (lit "x")
         (mkWorld [LF] (Some (mkfile (lit "a b a") true false)) [])) =
  WriteRaised PermissionError.
Proof.
  exact (proj1 (proj2 (apply_unwritable_target (lit "a") (lit "x")
                         (mkWorld [LF] (Some (mkfile (lit "a b a") true false)) [])
                         (lit "a b a") eq_refl eq_refl) eq_refl)).
Defined.

(** X4.  Whatever the environment does, the operations of one run are the
    read alone, the read and the open for writing, or the read, the open
    and one write, in that order.  A completed run has the third form, and
    the third form is that of the runs that complete or fail in the write.
    So a run never writes without having read and never writes twice. *)
Theorem apply_trace_shape (env : Env) (old new : str) (w : World) :
  exists ops,
    trace (snd (apply_in env old new w)) = trace w ++ ops /\
    (ops = [EvOpenRead] \/
     ops = [EvOpenRead; EvOpenWrite] \/
     exists text, ops = [EvOpenRead; EvOpenWrite; EvWriteData text]) /\
    ((exists text, ops = [EvOpenRead; EvOpenWrite; EvWriteData text]) <->
     fst (apply_in env old new w) = Completed \/
     fst (apply_in env old new w) = WriteDataRaised).
Proof.
  destruct (apply_in_cases env old new w)
    as [(_ & E) | [(f & _ & _ & E) | [(f & _ & _ & _ & E)
       | [(f & _ & _ & _ & _ & E) | [(f & _ & _ & _ & _ & _ & E)
       | [(f & n & _ & _ & _ & _ & _ & _ & E)
       | (f & _ & _ & _ & _ & _ & _ & E)]]]]]];
    rewrite E; simpl fst; simpl snd.
  1-4: exists [EvOpenRead]; split; [reflexivity|]; split; [now left|];
       split; [intros [t [=]] | intros [[=]|[=]]].
  - exists [EvOpenRead; EvOpenWrite]. split; [simpl; now rewrite <- app_assoc|].
    split; [right; now left|]. split; [intros [t [=]] | intros [[=]|[=]]].
  - eexists. split; [apply partly_patched_trace|].
    split; [right; right; eauto|]. split; eauto.
  - eexists. split; [apply patched_trace|].
    split; [right; right; eauto|]. split; eauto.
Qed.

(** X5.  A run never creates the target, never removes it and never
    changes its permissions or [os.linesep]. *)
Theorem apply_keeps_file_identity (old new : str) (w : World) :
  linesep (snd (apply old new w)) = linesep w /\
  (target (snd (apply old new w)) = None <-> target w = None) /\
  (forall f f', target w = Some f -> target (snd (apply old new w)) = Some f' ->
     f_readable f' = f_readable f /\ f_writable f' = f_writable f).
Proof.
  destruct (apply_cases old new w)
    as [(_ & e & E) | [(C & _ & _ & E) | [(C & _ & _ & _ & E)
                                          | (C & HC & _ & _ & E)]]];
    rewrite E; simpl fst; simpl snd.
  1-3: simpl; split; [reflexivity|]; split; [reflexivity|];
       intros f f' Hf Hf'; split; congruence.
  apply text_of_Some in HC as (f0 & T & _ & _).
  simpl. rewrite T. split; [reflexivity|]. split.
  - split; discriminate.
  - intros f f' [= <-] [= <-]. now split.
Qed.

Lemma apply_keeps_file_identity_witness :
  f_readable (mkfile (lit "x b a") true true) = true /\
  f_writable (mkfile (lit "x b a") true true) = true.
Proof.
  exact (proj2 (proj2 (apply_keeps_file_identity (lit "a") (lit "x")
                         (posix_file (lit "a b a"))))
           (mkfile (lit "a b a") true true) (mkfile (lit "x b a") true true)
           eq_refl eq_refl).
Defined.

(** X6.  A patch whose blocks are equal still rewrites the file: when
    [old] occurs in the text of a readable and writable file, the run with
    [new = old] completes and writes the text it read.  With [os.linesep]
    LF the file then holds that text, so its bytes have changed exactly
    when it held a CR. *)
Theorem apply_equal_blocks_rewrites (old : str) (w : World) (f : file) :
  target w = Some f ->
  f_readable f = true ->
  f_writable f = true ->
  contains old (universal_newlines (f_bytes f)) = true ->
  fst (apply old old w) = Completed /\
  written (trace (snd (apply old old w))) =
    written (trace w) ++ [universal_newlines (f_bytes f)] /\
  (linesep w = [LF] ->
   bytes_of (snd (apply old old w)) = Some (universal_newlines (f_bytes f)) /\
   (bytes_of (snd (apply old old w)) = Some (f_bytes f) <->
    has_CR (f_bytes f) = false)).
Proof.
  intros HT HR HWf Hin.
  assert (text_of w = Some (universal_newlines (f_bytes f))) as HC
      by (unfold text_of; now rewrite HT, HR).
  assert (writable w = true) as HW by (unfold writable; now rewrite HT).
  rewrite (apply_present old old w _ HC Hin HW). simpl fst. simpl snd.
  rewrite patched_trace, patched_bytes, written_app, replace1_same.
  split; [reflexivity|]. split; [reflexivity|].
  intros ->. rewrite translate_out_LF. split; [reflexivity|].
  rewrite <- universal_newlines_fixed. split; [now intros [= ->] | now intros ->].
Qed.

Lemma apply_equal_blocks_rewrites_witness :
  bytes_of (snd (apply (lit "a") (lit "a")
                   (posix_file (lit "a" ++ [CR; LF] ++ lit "b")))) =
  Some (universal_newlines (lit "a" ++ [CR; LF] ++ lit "b")).
Proof.
  exact (proj1 (proj2 (proj2 (apply_equal_blocks_rewrites (lit "a")
                         (posix_file (lit "a" ++ [CR; LF] ++ lit "b"))
                         (mkfile (lit "a" ++ [CR; LF] ++ lit "b") true true)
                         eq_refl eq_refl eq_refl eq_refl)) eq_refl)).
Defined.

(** X7.  When the blocks differ, a completed run writes a text different
    from the one it read. *)
Theorem apply_changes_text (old new : str) (w : World) (C : str) :
  old <> new ->
  text_of w = Some C ->
  fst (apply old new w) = Completed ->
  exists T,
    written (trace (snd (apply old new w))) = written (trace w) ++ [T] /\
    T <> C.
Proof.
  intros Hne HC Hdone.
  destruct (apply_cases old new w)
    as [(_ & e & E) | [(C' & _ & _ & E) | [(C' & _ & _ & _ & E)
                                           | (C' & HC' & Hin & _ & E)]]];
    rewrite E in Hdone |- *; try discriminate.
  assert (C' = C) by congruence. subst C'. simpl snd.
  exists (replace1 old new C). split.
  - rewrite patched_trace, written_app. reflexivity.
  - unfold contains in Hin. destruct (find old C) as [i|] eqn:F; [|discriminate].
    destruct (replace1_found old new C i F) as (pre & post & EC & _ & ->).
    rewrite EC. intros Heq. apply app_inv_head, app_inv_tail in Heq.
    congruence.
Qed.

Lemma apply_changes_text_witness :
  exists T,
    written (trace (snd (apply (lit "a") (lit "x") (posix_file (lit "a b a"))))) =
      written (trace (posix_file (lit "a b a"))) ++ [T] /\
    T <> lit "a b a".
Proof.
  refine (apply_changes_text (lit "a") (lit "x") (posix_file (lit "a b a"))
            (lit "a b a") _ eq_refl eq_refl).
  simpl. discriminate.
Defined.

(** X8.  The reverse patch undoes the patch when [new] is first found
    where it was put: if [old] is first found in [C] at index [i] and [new]
    is first found in the patched text at the same index, then (with no CR
    in [new] and [os.linesep] LF or CR LF) running with [old], [new] and
    then with [new], [old] completes twice and the file has the text [C]
    again. *)
Theorem reverse_patch_restores_text
    (old new : str) (w : World) (C : str) (i : nat) :
  text_of w = Some C ->
  writable w = true ->
  has_CR new = false ->
  linesep w = [LF] \/ linesep w = [CR; LF] ->
  find old C = Some i ->
  find new (replace1 old new C) = Some i ->
  let r1 := apply old new w in
  let r2 := apply new old (snd r1) in
  fst r1 = Completed /\
  fst r2 = Completed /\
  text_of (snd r2) = Some C /\
  bytes_of (snd r2) = Some (translate_out (linesep w) C).
Proof.
  intros HC HW Hnew Hls F G r1 r2. subst r1 r2.
  assert (contains old C = true) as Hin by (unfold contains; now rewrite F).
  pose proof (text_of_no_CR w C HC) as HnoCR.
  rewrite (apply_present old new w C HC Hin HW). simpl fst. simpl snd.
  set (w1 := patched (replace1 old new C) w).
  assert (text_of w1 = Some (replace1 old new C)) as HC1.
  { unfold w1. rewrite (patched_text_of (replace1 old new C) w C HC).
    f_equal. apply read_back_id; [exact Hls|]. now apply replace1_no_CR. }
  pose proof (patched_writable (replace1 old new C) w HW) as HW1. fold w1 in HW1.
  assert (contains new (replace1 old new C) = true) as Hin1
      by (unfold contains; now rewrite G).
  rewrite (apply_present new old w1 (replace1 old new C) HC1 Hin1 HW1).
  simpl fst. simpl snd. rewrite (replace1_inverse old new C i F G).
  split; [reflexivity|]. split; [reflexivity|].
  rewrite (patched_text_of C w1 (replace1 old new C) HC1), patched_bytes.
  unfold w1. rewrite patched_linesep. split; [|reflexivity].
  f_equal. now apply read_back_id.
Qed.

Lemma reverse_patch_restores_text_witness :
  text_of (snd (apply (lit "'hello'") (lit "'hi'")
                  (snd (apply (lit "'hi'") (lit "'hello'")
                          (posix_file (lit "function greet() { return 'hi'; }"))))))
  = Some (lit "function greet() { return 'hi'; }").
Proof.
  destruct (reverse_patch_restores_text (lit "'hi'") (lit "'hello'")
              (posix_file (lit "function greet() { return 'hi'; }"))
              (lit "function greet() { return 'hi'; }") 26
              eq_refl eq_refl eq_refl (or_introl eq_refl) eq_refl eq_refl)
    as (_ & _ & T & _).
  exact T.
Defined.

(** Without the condition on where [new] is first found the reverse patch
    can hit another place: "ab" patched with "b" -> "a" is "aa", and the
    reverse patch turns that into "ba". *)
Example reverse_patch_elsewhere :
  replace1 (lit "a") (lit "b") (replace1 (lit "b") (lit "a") (lit "ab")) = lit "ba".
Proof. reflexivity. Qed.

(** X9.  What [read_text] returns after [write_text text]: on a readable
    and writable file the write succeeds and the read gives back [text]
    with each LF stored as [os.linesep] and then CR LF and CR read as LF.
    That is [text] itself when it has no CR and [os.linesep] is LF or
    CR LF. *)
Theorem write_text_read_text (text : str) (w : World) (C : str) :
  text_of w = Some C ->
  writable w = true ->
  fst (write_text text w) = None /\
  fst (read_text (snd (write_text text w))) =
    inr (universal_newlines (translate_out (linesep w) text)) /\
  (has_CR text = false -> linesep w = [LF] \/ linesep w = [CR; LF] ->
   fst (read_text (snd (write_text text w))) = inr text).
Proof.
  intros HC HW. apply text_of_Some in HC as (f & T & R & _).
  unfold write_text. rewrite (open_w_ok w HW). simpl fst. simpl snd.
  assert (fst (read_text (write_data text (set_bytes [] (log EvOpenWrite w)))) =
          inr (universal_newlines (translate_out (linesep w) text))) as H.
  { unfold read_text. simpl. now rewrite T, R. }
  split; [reflexivity|]. split; [exact H|].
  intros Htext Hls. rewrite H. f_equal. now apply read_back_id.
Qed.

Lemma write_text_read_text_witness :
  fst (read_text (snd (write_text (lit "a" ++ [LF] ++ lit "b")
                         (mkWorld [CR; LF] (Some (mkfile (lit "old") true true)) []))))
  = inr (lit "a" ++ [LF] ++ lit "b").
Proof.
  exact (proj2 (proj2 (write_text_read_text (lit "a" ++ [LF] ++ lit "b")
                         (mkWorld [CR; LF] (Some (mkfile (lit "old") true true)) [])
                         (lit "old") eq_refl eq_refl))
           eq_refl (or_intror eq_refl)).
Defined.

(** A CR in the text does not survive the round trip. *)
Example write_text_read_text_CR :
  fst (read_text (snd (write_text (lit "a" ++ [CR] ++ lit "b") (posix_file (lit "old")))))
  = inr (lit "a" ++ [LF] ++ lit "b").
Proof. reflexivity. Qed.

(** X10.  A block that contains a CR is never found: the text the script
    searches has none, since [read_text] turns them into LF.  On every
    readable file such a run ends in [BlockNotFound] and leaves the target
    as it was, even when the bytes of the file contain the block. *)
Theorem apply_block_with_CR_not_found (old new : str) (w : World) (C : str) :
  has_CR old = true ->
  text_of w = Some C ->
  fst (apply old new w) = BlockNotFound /\
  target (snd (apply old new w)) = target w.
Proof.
  intros Hold HC.
  assert (contains old C = false) as Hab.
  { destruct (contains old C) eqn:Hin; [|reflexivity].
    pose proof (contains_has_CR old C Hin (text_of_no_CR w C HC)). congruence. }
  now rewrite (apply_absent old new w C HC Hab).
Qed.

Lemma apply_block_with_CR_not_found_witness :
  fst (apply (lit "a" ++ [CR; LF]) (lit "x")
         (posix_file (lit "a" ++ [CR; LF] ++ lit "b"))) = BlockNotFound.
Proof.
  exact (proj1 (apply_block_with_CR_not_found (lit "a" ++ [CR; LF]) (lit "x")
                  (posix_file (lit "a" ++ [CR; LF] ++ lit "b"))
                  (lit "a" ++ [LF] ++ lit "b") eq_refl eq_refl)).
Defined.

(** X11.  With [os.linesep] LF and no CR in [new], a completed run leaves
    a file without any CR: every CR LF and CR line end of the file is
    rewritten as LF, not only those in the replaced block. *)
Theorem apply_completed_posix_no_CR (old new : str) (w : World) :
  linesep w = [LF] ->
  has_CR new = false ->
  fst (apply old new w) = Completed ->
  exists bytes,
    bytes_of (snd (apply old new w)) = Some bytes /\ has_CR bytes = false.
Proof.
  intros Hls Hnew Hdone.
  destruct (apply_cases old new w)
    as [(_ & e & E) | [(C & _ & _ & E) | [(C & _ & _ & _ & E)
                                          | (C & HC & _ & _ & E)]]];
    rewrite E in Hdone |- *; try discriminate.
  simpl snd. rewrite patched_bytes, Hls, translate_out_LF.
  eexists. split; [reflexivity|].
  apply replace1_no_CR; [|exact Hnew]. exact (text_of_no_CR w C HC).
Qed.

Lemma apply_completed_posix_no_CR_witness :
  exists bytes,
    bytes_of (snd (apply (lit "b") (lit "x")
                     (posix_file (lit "a" ++ [CR; LF] ++ lit "b" ++ [CR])))) =
      Some bytes /\
    has_CR bytes = false.
Proof.
  exact (apply_completed_posix_no_CR (lit "b") (lit "x")
           (posix_file (lit "a" ++ [CR; LF] ++ lit "b" ++ [CR]))
           eq_refl eq_refl eq_refl).
Defined.



(** A failure in the write does not repeat: with the write cut short before
    its first byte the file is left empty, and the next run ends in
    [BlockNotFound]. *)
Example write_failure_does_not_repeat :
  let env := mkEnv (fun _ => true) (Some 0) in
  let r1 := apply_in env (lit "a") (lit "x") (posix_file (lit "a b a")) in
  let r2 := apply_in env (lit "a") (lit "x") (snd r1) in
  fst r1 = WriteDataRaised /\
  bytes_of (snd r1) = Some [] /\
  fst r2 = BlockNotFound.
Proof. repeat split. Qed.

(** X13.  Wherever a run is stopped, the target is as it was or holds the
    first bytes of the new content.  Stopped between two operations, what
    the run has done is the beginning of what the whole run does, and the
    target is as it was, or empty (between the open and the write), or as
    the whole run leaves it.  When the environment decides how the run
    ends, in particular when the write stops after any number [n] of bytes,
    the target is as it was or holds the first [n] bytes of the new
    content, or all of it. *)
Theorem interrupted_run_states
    (env : Env) (old new : str) (k : nat) (w : World) :
  (exists rest,
     trace (snd (apply old new w)) = trace (interrupted old new k w) ++ rest) /\
  (target (interrupted old new k w) = target w \/
   bytes_of (interrupted old new k w) = Some [] \/
   interrupted old new k w = snd (apply old new w)) /\
  (target (snd (apply_in env old new w)) = target w \/
   exists C n,
     text_of w = Some C /\
     (write_fault env = Some n \/ write_fault env = None) /\
     bytes_of (snd (apply_in env old new w)) =
       Some (firstn n (translate_out (linesep w) (replace1 old new C)))).
Proof.
  assert ((exists rest,
             trace (snd (apply old new w)) =
             trace (interrupted old new k w) ++ rest) /\
          (target (interrupted old new k w) = target w \/
           bytes_of (interrupted old new k w) = Some [] \/
           interrupted old new k w = snd (apply old new w))) as [H1 H2].
  { unfold interrupted.
    destruct (Nat.le_gt_cases 4 k) as [Hk|Hk].
    - rewrite (run_ge_4 old new k w Hk). simpl snd. split.
      + exists []. now rewrite app_nil_r.
      + right. now right.
    - assert (k = 0 \/ k = 1 \/ k = 2 \/ k = 3) as Hcases by lia.
      destruct w as [ls [[bytes r wr]|] tr];
        unfold apply, write_text, open_w, read_text, bytes_of;
        destruct Hcases as [-> | [-> | [-> | ->]]];
        cbn [run step]; unfold read_text, open_w; simpl;
        try destruct r; simpl;
        try destruct (contains old (universal_newlines bytes)); simpl;
        try destruct wr; simpl;
        (split; [eexists; rewrite <- ?app_assoc; simpl; reflexivity | auto]). }
  split; [exact H1|]. split; [exact H2|].
  destruct (apply_in_cases env old new w)
    as [(_ & E) | [(f & _ & _ & E) | [(f & _ & _ & _ & E)
       | [(f & _ & _ & _ & _ & E) | [(f & _ & _ & _ & _ & _ & E)
       | [(f & n & T & R & _ & _ & _ & Fw & E)
       | (f & T & R & _ & _ & _ & Fw & E)]]]]]];
    rewrite E; simpl snd; try (now left).
  - right. exists (universal_newlines (f_bytes f)), n.
    rewrite partly_patched_bytes. unfold text_of. rewrite T, R. auto.
  - right.
    exists (universal_newlines (f_bytes f)),
           (length (translate_out (linesep w)
                      (replace1 old new (universal_newlines (f_bytes f))))).
    rewrite patched_bytes, firstn_all. unfold text_of. rewrite T, R. auto.
Qed.

(** X14.  After every completed run the text written has the length
    [len(C) - len(old) + len(new)] and contains [new], however many times
    [old] occurs in the text [C] that was read. *)
Theorem apply_completed_text (old new : str) (w : World) (C : str) :
  text_of w = Some C ->
  fst (apply old new w) = Completed ->
  exists T,
    written (trace (snd (apply old new w))) = written (trace w) ++ [T] /\
    length T = length C - length old + length new /\
    length old <= length C /\
    contains new T = true.
Proof.
  intros HC Hdone.
  destruct (apply_cases old new w)
    as [(_ & e & E) | [(C' & _ & _ & E) | [(C' & _ & _ & _ & E)
                                           | (C' & HC' & Hin & _ & E)]]];
    rewrite E in Hdone |- *; try discriminate.
  assert (C' = C) by congruence. subst C'. simpl snd.
  exists (replace1 old new C). split.
  - rewrite patched_trace, written_app. reflexivity.
  - split; [now apply replace1_length|].
    pose proof Hin as Hf. unfold contains in Hf.
    destruct (find old C) as [i|] eqn:F; [|discriminate].
    destruct (replace1_found old new C i F) as (pre & post & EC & _ & ->).
    split.
    + rewrite EC, !length_app. lia.
    + apply contains_iff. now exists pre, post.
Qed.

Lemma apply_completed_text_witness :
  exists T,
    written (trace (snd (apply (lit "a") (lit "xyz") (posix_file (lit "a b a"))))) =
      written (trace (posix_file (lit "a b a"))) ++ [T] /\
    length T = length (lit "a b a") - length (lit "a") + length (lit "xyz").
Proof.
  destruct (apply_completed_text (lit "a") (lit "xyz") (posix_file (lit "a b a"))
              (lit "a b a") eq_refl eq_refl) as (T & HT & HL & _).
  exists T. split; [exact HT | exact HL].
Defined.
